(** * seg_lapa: the streaming IoU metric, the Lightning module's three
    accumulators, the dataset-config dispatch and the per-run log directory.

    [seg_lapa/train.py] and [seg_lapa/config_parse/dataset_conf.py] are
    embedded from their source.  [seg_lapa/metrics.py] (the [Iou] metric
    that [train.py] instantiates three times) is not part of the sources at
    hand; module [Metrics] models it from the specification. *)

From Stdlib Require Import ZArith NArith QArith Lia Ascii String.
From stdpp Require Import base option list gmap strings fin_maps pretty.

Local Open Scope Z_scope.

(** Outcome of a fallible call: the returned value or the raised error. *)
Inductive result (E A : Type) : Type :=
| Ok (a : A)
| Err (e : E).
Arguments Ok {E A} a.
Arguments Err {E A} e.

(** ** The IoU accumulator *)
Module Metrics.

(** Modelled from the spec: the error taxonomy of section 7, for the metric
    of [seg_lapa/metrics.py], which is absent. *)
Inductive error : Set :=
| ConfigurationError
| LengthMismatch
| OutOfRangeLabel
| CollectiveMismatch.

(** Modelled from the spec: the [ConfusionMatrixState] of
    [seg_lapa/metrics.py] (absent): a grid of non-negative counts,
    [counts[t][p]] being the number of pixels of true label [t] classified
    as [p], and the number of classes fixed at construction. *)
Record ConfusionMatrixState : Type := {
  num_classes : nat;
  counts : list (list N)
}.

(** The grid has [num_classes] rows of [num_classes] entries. *)
Definition square (n : nat) (m : list (list N)) : Prop :=
  length m = n ∧ Forall (λ row, length row = n) m.

Definition well_formed (s : ConfusionMatrixState) : Prop :=
  square (num_classes s) (counts s).

Definition zero_grid (n : nat) : list (list N) :=
  replicate n (replicate n 0%N).

(** Modelled from the spec: [new(num_classes)] of the absent metric:
    a zero matrix, [ConfigurationError] when [num_classes <= 0]. *)
Definition new (n : Z) : result error ConfusionMatrixState :=
  if n <=? 0 then Err ConfigurationError
  else Ok {| num_classes := Z.to_nat n; counts := zero_grid (Z.to_nat n) |}.

(** Modelled from the spec: [reset()] of the absent metric: zeroes all
    entries in place. *)
Definition reset (s : ConfusionMatrixState) : ConfusionMatrixState :=
  {| num_classes := num_classes s;
     counts := map (map (λ _, 0%N)) (counts s) |}.

Definition add_grid (a b : list (list N)) : list (list N) :=
  zip_with (zip_with N.add) a b.

(** Modelled from the spec: [merge(other)] of the absent metric: entrywise
    addition, [CollectiveMismatch] when the class counts differ. *)
Definition merge (a b : ConfusionMatrixState)
  : result error ConfusionMatrixState :=
  if decide (num_classes a = num_classes b)
  then Ok {| num_classes := num_classes a;
             counts := add_grid (counts a) (counts b) |}
  else Err CollectiveMismatch.

(** The shape of a reduction over the workers' states: which state is merged
    with which, in what nesting. *)
Inductive topology : Type :=
| Leaf (s : ConfusionMatrixState)
| Join (l r : topology).

Fixpoint leaves (t : topology) : list ConfusionMatrixState :=
  match t with
  | Leaf s => [s]
  | Join l r => leaves l ++ leaves r
  end.

Fixpoint reduce (t : topology) : result error ConfusionMatrixState :=
  match t with
  | Leaf s => Ok s
  | Join l r =>
      match reduce l, reduce r with
      | Ok a, Ok b => merge a b
      | Err e, _ => Err e
      | _, Err e => Err e
      end
  end.

(** The sum of a non-empty collection of states, [None] for no state. *)
Definition plus (s : ConfusionMatrixState) (acc : option ConfusionMatrixState)
  : option ConfusionMatrixState :=
  match acc with
  | None => Some s
  | Some a => Some {| num_classes := num_classes s;
                      counts := add_grid (counts s) (counts a) |}
  end.

(** The empty state of the lifecycle: all counts zero. *)
Definition Empty (s : ConfusionMatrixState) : Prop :=
  counts s = zero_grid (num_classes s).

(** *** Updater *)

(** A pixel is ignored when its target is the sentinel. *)
Definition ignored (ignore_index : option Z) (target : Z) : bool :=
  match ignore_index with
  | Some k => target =? k
  | None => false
  end.

Definition in_range (n : nat) (label : Z) : bool :=
  (0 <=? label) && (label <? Z.of_nat n).

(** Modelled from the spec: the range constraint of [update] in the absent
    metric.  A pixel is a pair (prediction, target).  The labels of a pixel
    that is not ignored must both be class ids; an ignored pixel is skipped
    whatever its prediction is. *)
Definition pixel_ok (n : nat) (ignore_index : option Z) (px : Z * Z) : bool :=
  ignored ignore_index px.2 || (in_range n px.1 && in_range n px.2).

(** Modelled from the spec: the two constraints of [update] in the absent
    metric, the lengths first. *)
Definition validate (n : nat) (predictions targets : list Z)
    (ignore_index : option Z) : option error :=
  if negb (length predictions =? length targets)%nat then Some LengthMismatch
  else if forallb (pixel_ok n ignore_index) (zip predictions targets)
       then None
       else Some OutOfRangeLabel.

(** [counts[t][p] += 1] *)
Definition incr_cell (t p : nat) (m : list (list N)) : list (list N) :=
  alter (alter N.succ p) t m.

Definition fold_pixel (ignore_index : option Z) (m : list (list N))
    (px : Z * Z) : list (list N) :=
  if ignored ignore_index px.2 then m
  else incr_cell (Z.to_nat px.2) (Z.to_nat px.1) m.

(** Modelled from the spec: the effect of [update] in the absent metric,
    one increment for every pixel that is not ignored. *)
Definition commit (ignore_index : option Z) (m : list (list N))
    (pixels : list (Z * Z)) : list (list N) :=
  foldl (fold_pixel ignore_index) m pixels.

(** Modelled from the spec: [update(state, predictions, targets,
    ignore_index)] of the absent metric.  The state is mutated in place, so
    the call yields its outcome together with the state it leaves behind;
    validation completes before the first increment.  The spec words the range
    constraint both per value (section 4.2) and per non-ignored label
    (section 7); the latter is taken, the one under which an ignored pixel is
    skipped regardless of its prediction and every counted pixel has a cell. *)
Definition update (s : ConfusionMatrixState) (predictions targets : list Z)
    (ignore_index : option Z) : result error () * ConfusionMatrixState :=
  match validate (num_classes s) predictions targets ignore_index with
  | Some e => (Err e, s)
  | None =>
      (Ok (),
       {| num_classes := num_classes s;
          counts := commit ignore_index (counts s) (zip predictions targets) |})
  end.

(** A batch as one call of [update] receives it. *)
Record batch : Type := {
  predictions : list Z;
  targets : list Z;
  ignore_index : option Z
}.





(** *** Compute *)

Definition sumN (l : list N) : N := foldr N.add 0%N l.

(** [counts[t][p]], row [c] and column [c]; outside the grid there is
    nothing to count. *)
Definition entry (row : list N) (p : nat) : N := default 0%N (row !! p).

Definition row (m : list (list N)) (t : nat) : list N := default [] (m !! t).

Definition cell (m : list (list N)) (t p : nat) : N := entry (row m t) p.

Definition row_sum (m : list (list N)) (c : nat) : N := sumN (row m c).

Definition col_sum (m : list (list N)) (c : nat) : N :=
  sumN (map (λ r : list N, entry r c) m).


Definition TP (m : list (list N)) (c : nat) : Z := Z.of_N (cell m c c).
Definition FP (m : list (list N)) (c : nat) : Z := Z.of_N (col_sum m c) - TP m c.
Definition FN (m : list (list N)) (c : nat) : Z := Z.of_N (row_sum m c) - TP m c.
Definition denom (m : list (list N)) (c : nat) : Z := TP m c + FP m c + FN m c.

(** Modelled from the spec: the per-class value of [compute] in the absent
    metric; [None] is the undefined marker. *)
Definition iou_class (m : list (list N)) (c : nat) : option Q :=
  if 0 <? denom m c then Some (TP m c # Z.to_pos (denom m c)) else None.

(** Modelled from the spec: the [IoUResult] of the absent metric. *)
Record IoUResult : Type := {
  per_class : list (option Q);
  mean : option Q
}.

Definition Qsum (l : list Q) : Q := foldr Qplus 0%Q l.

Definition defined_values (l : list (option Q)) : list Q := omap id l.

(** Modelled from the spec: the mean of [compute] in the absent metric, over
    the defined entries only. *)
Definition mean_defined (l : list (option Q)) : option Q :=
  match defined_values l with
  | [] => None
  | q :: qs => Some (Qsum (q :: qs) / inject_Z (Z.of_nat (length (q :: qs))))%Q
  end.

(** Modelled from the spec: [compute()] of the absent metric, with the
    division carried out over the rationals. *)
Definition compute (s : ConfusionMatrixState) : IoUResult :=
  let pc := map (iou_class (counts s)) (seq 0 (num_classes s)) in
  {| per_class := pc; mean := mean_defined pc |}.

(** The result whose every entry is the undefined marker. *)
Definition all_undefined (n : nat) : IoUResult :=
  {| per_class := replicate n None; mean := None |}.

End Metrics.

(** ** seg_lapa/config_parse/dataset_conf.py *)
Module DatasetConf.

(** A scalar node of an OmegaConf [DictConfig]. *)
Inductive value : Set :=
| VNone
| VBool (b : bool)
| VInt (z : Z)
| VStr (s : string).

(** [cfg_dataset]: a flat mapping from field names to scalars. *)
Abbreviation DictConfig := (gmap string value).

(** What an f-string prints for a scalar. *)
Definition py_str (v : value) : string :=
  match v with
  | VNone => "None"
  | VBool true => "True"
  | VBool false => "False"
  | VInt z => pretty z
  | VStr s => s
  end.

(** [cfg_dataset.name]: a key that is absent reads as [None]. *)
Definition getattr (cfg : DictConfig) (field : string) : value :=
  default VNone (cfg !! field).

Record LapaConf : Set := {
  name : string;
  data_dir : string;
  batch_size : Z;
  num_workers : Z;
  resize_h : Z;
  resize_w : Z
}.

(** The concrete subclasses of the abstract [DatasetConf]. *)
Inductive DatasetConf : Set :=
| Lapa (conf : LapaConf).

Inductive exn : Set :=
| KeyError
| TypeError
| ValidationError
| ValueError (msg : string).

(** The field validators of [pydantic.dataclasses.dataclass], which decide
    what a [str] and an [int] field accept and what they store. *)
Class Pydantic : Type := {
  str_validator : value → option string;
  int_validator : value → option Z
}.

(** A validator set that accepts exactly the values of the declared type. *)
Definition strict : Pydantic := {|
  str_validator v := match v with VStr s => Some s | _ => None end;
  int_validator v := match v with VInt z => Some z | _ => None end
|}.

Definition lapa_fields : gset string :=
  {[ "name"; "data_dir"; "batch_size"; "num_workers"; "resize_h"; "resize_w" ]}%string.

(** The pydantic-checked fields, in declaration order. *)
Definition lapa_validate `{Pydantic} (kw : DictConfig) : option LapaConf :=
  n ← kw !! "name"%string ≫= str_validator;
  d ← kw !! "data_dir"%string ≫= str_validator;
  b ← kw !! "batch_size"%string ≫= int_validator;
  w ← kw !! "num_workers"%string ≫= int_validator;
  rh ← kw !! "resize_h"%string ≫= int_validator;
  rw ← kw !! "resize_w"%string ≫= int_validator;
  Some {| name := n; data_dir := d; batch_size := b; num_workers := w;
          resize_h := rh; resize_w := rw |}.

(** [LapaConf] called on the unpacked mapping: the generated [__init__]
    binds the keywords (a missing
    or an unexpected one is a [TypeError]), then the fields are validated. *)
Definition make_LapaConf `{Pydantic} (kw : DictConfig) : result exn DatasetConf :=
  if decide (dom kw = lapa_fields) then
    match lapa_validate kw with
    | Some c => Ok (Lapa c)
    | None => Err ValidationError
    end
  else Err TypeError.

(** [valid_options = {"lapa": LapaConf}] *)
Definition valid_options `{Pydantic}
  : list (string * (DictConfig → result exn DatasetConf)) :=
  [("lapa"%string, make_LapaConf)].

Definition keys `{Pydantic} : list string := valid_options.*1.

(** [valid_options[key]]: only a string can equal a key of the table. *)
Definition subscript `{Pydantic} (key : value)
  : result exn (DictConfig → result exn DatasetConf) :=
  match key with
  | VStr s =>
      match list_find (λ kv, kv.1 = s) valid_options with
      | Some (_, (_, cls)) => Ok cls
      | None => Err KeyError
      end
  | _ => Err KeyError
  end.

(** [repr] of a list of strings free of quotes and escapes. *)
Definition repr_list (l : list string) : string :=
  ("[" ++ String.concat ", " (map (λ s, "'" ++ s ++ "'") l) ++ "]")%string.

Definition invalid_message `{Pydantic} (cfg_dataset : DictConfig) : string :=
  ("Invalid Config: '" ++ py_str (getattr cfg_dataset "name")
   ++ "' is not a valid dataset. Valid Options: " ++ repr_list keys)%string.

Definition validate_dataconf `{Pydantic} (cfg_dataset : DictConfig)
  : result exn DatasetConf :=
  let attempt :=
    match subscript (getattr cfg_dataset "name") with
    | Ok cls => cls cfg_dataset
    | Err e => Err e
    end in
  match attempt with
  | Err KeyError => Err (ValueError (invalid_message cfg_dataset))
  | r => r
  end.

(** The mapping with exactly the six fields of [LapaConf], each holding a
    value of its declared type. *)
Definition lapa_config (d : string) (b w rh rw : Z) : DictConfig :=
  <["name"%string := VStr "lapa"%string]> (<["data_dir"%string := VStr d]> (
  <["batch_size"%string := VInt b]> (<["num_workers"%string := VInt w]> (
  <["resize_h"%string := VInt rh]> (<["resize_w"%string := VInt rw]> ∅))))).

End DatasetConf.

(** ** seg_lapa/train.py *)
Module Train.

(** *** Process rank *)

(** The ASCII white space that is skipped around a numeral: tab, line
    feed, vertical tab, form feed, carriage return and space. *)
Definition is_space (a : ascii) : bool :=
  let n := nat_of_ascii a in
  ((9 <=? n) && (n <=? 13) || (n =? 32))%nat.

Fixpoint lstrip (s : list ascii) : list ascii :=
  match s with
  | a :: r => if is_space a then lstrip r else s
  | [] => []
  end.

Definition strip (s : list ascii) : list ascii :=
  rev (lstrip (rev (lstrip s))).

Definition digit_of (a : ascii) : option Z :=
  let n := nat_of_ascii a in
  if ((48 <=? n) && (n <=? 57))%nat then Some (Z.of_nat n - 48) else None.

(** Decimal digits, single underscores allowed between two digits. *)
Fixpoint parse_digits (acc : Z) (after_digit : bool) (s : list ascii)
  : option Z :=
  match s with
  | [] => if after_digit then Some acc else None
  | a :: r =>
      match digit_of a with
      | Some d => parse_digits (10 * acc + d) true r
      | None =>
          if Ascii.eqb a "_" && after_digit then parse_digits acc false r
          else None
      end
  end.

Inductive exn : Set :=
| ValueError
| OSError (errno : string).

(** A reader of ASCII decimal numerals: optional white space around, an
    optional sign, digits with single underscores between them.  It serves
    as an instance of the built-in [int] below on such strings; no statement
    about [is_rank_zero] or [create_log_dir] depends on it. *)
Definition ascii_decimal (s : string) : result exn Z :=
  let body := strip (list_ascii_of_string s) in
  let parsed :=
    match body with
    | "+"%char :: r => parse_digits 0 false r
    | "-"%char :: r => Z.opp <$> parse_digits 0 false r
    | _ => parse_digits 0 false body
    end in
  match parsed with
  | Some z => Ok z
  | None => Err ValueError
  end.

(** The built-in [int] applied to a string: the integer it reads, [None]
    where it raises [ValueError].  Which strings it reads (white space and
    digits outside ASCII, the limit on the number of digits) is the
    interpreter's matter and is left open. *)
Class Builtins : Type := {
  int_of_str : string → option Z
}.

(** The instance at which the examples below are run. *)
Definition ascii_int : Builtins := {|
  int_of_str s :=
    match ascii_decimal s with
    | Ok z => Some z
    | Err _ => None
    end
|}.

(** [int(os.environ.get(key, 0))] *)
Definition rank {builtins : Builtins} (environ : gmap string string)
    (key : string) : result exn Z :=
  match environ !! key with
  | Some s =>
      match int_of_str s with
      | Some z => Ok z
      | None => Err ValueError
      end
  | None => Ok 0
  end.

Definition is_rank_zero {builtins : Builtins} (environ : gmap string string)
  : result exn bool :=
  match rank environ "LOCAL_RANK" with
  | Err e => Err e
  | Ok local_rank =>
      match rank environ "NODE_RANK" with
      | Err e => Err e
      | Ok node_rank =>
          if (local_rank =? 0) && (node_rank =? 0) then Ok true else Ok false
      end
  end.

(** *** Paths and the file system *)

(** A [pathlib] path as its parts; an absolute one starts with its anchor. *)
Abbreviation Path := (list string).

Fixpoint split_slash (cur : string) (s : string) : list string :=
  match s with
  | EmptyString => [cur]
  | String a r =>
      if Ascii.eqb a "/" then cur :: split_slash EmptyString r
      else split_slash (cur +:+ String a EmptyString) r
  end.

Definition components (s : string) : list string :=
  filter (λ c, c ≠ EmptyString ∧ c ≠ "."%string) (split_slash EmptyString s).

Fixpoint leading_slashes (s : string) : nat :=
  match s with
  | String a r => if Ascii.eqb a "/" then S (leading_slashes r) else O
  | EmptyString => O
  end.

(** [p / s]: an absolute right operand replaces the left one. *)
Definition joinpath (p : Path) (s : string) : Path :=
  match leading_slashes s with
  | O => p ++ components s
  | 2%nat => "//"%string :: components s
  | _ => "/"%string :: components s
  end.

(** Directories, and regular files with what was written into them. *)
Record filesystem (Content : Type) : Type := {
  dirs : gset Path;
  files : gmap Path Content
}.
Arguments dirs {Content} _.
Arguments files {Content} _.

(** The path itself and the directories above it. *)
Definition lineage (p : Path) : list Path :=
  (λ k, take k p) <$> seq 1 (length p).

Definition is_file {C} (fs : filesystem C) (p : Path) : bool :=
  bool_decide (is_Some (files fs !! p)).

(** [p.mkdir(parents=True, exist_ok=True)]: a regular file on the way or in
    the place of [p] makes the call fail, and nothing is created then. *)
Definition mkdir_parents_exist_ok {C} (p : Path) (fs : filesystem C)
  : result exn (filesystem C) :=
  if existsb (is_file fs) (removelast (lineage p)) then Err (OSError "ENOTDIR")
  else if is_file fs p then Err (OSError "EEXIST")
  else Ok {| dirs := dirs fs ∪ list_to_set (lineage p); files := files fs |}.

(** [OmegaConf.save(cfg, f)]: opens [f] for writing and dumps [cfg]. *)
Definition save {C} (cfg : C) (f : Path) (fs : filesystem C)
  : result exn (filesystem C) :=
  if bool_decide (f ∈ dirs fs) then Err (OSError "EISDIR")
  else if bool_decide (removelast f ∈ dirs fs)
       then Ok {| dirs := dirs fs; files := <[f := cfg]> (files fs) |}
       else Err (OSError "ENOENT").

(** Every directory has its ancestors, as on a file system that was built
    by creating directories inside existing ones. *)
Definition ancestor_closed {C} (fs : filesystem C) : Prop :=
  ∀ d q, d ∈ dirs fs → q ∈ lineage d → q ∈ dirs fs.

Definition LOGS_DIR : string := "logs".

(** [get_project_root()] is passed in as [project_root]; the call yields the
    returned path or the exception, and the file system it leaves. *)
Definition create_log_dir {builtins : Builtins} {C} (project_root : Path)
    (environ : gmap string string) (cfg : C) (run_id : string)
    (fs : filesystem C) : result exn Path * filesystem C :=
  let log_root_dir := joinpath project_root LOGS_DIR in
  match is_rank_zero environ with
  | Err e => (Err e, fs)
  | Ok true =>
      let log_dir := joinpath log_root_dir run_id in
      match mkdir_parents_exist_ok log_dir fs with
      | Err e => (Err e, fs)
      | Ok fs1 =>
          match save cfg (joinpath log_dir "train.yaml") fs1 with
          | Err e => (Err e, fs1)
          | Ok fs2 => (Ok log_dir, fs2)
          end
      end
  | Ok false => (Ok (joinpath log_root_dir "None"), fs)
  end.

(** *** The Lightning module *)

(** [seg_lapa.callbacks.Mode] *)
Inductive Mode : Set := TRAIN | VAL | TEST.

(** What [train.py] imports and calls without defining it: the [Iou] metric
    object with its four entry points, the network, the loss and the bounded
    queues of [LogMedia].  An [Iou] entry point sees the batch and the object
    it is called on, nothing else. *)
Class Collaborators : Type := {
  Iou : Type;
  Tensor : Type;
  Scalar : Type;
  Model : Type;
  Queue : Type;
  Iou_new : Z → Iou;
  Iou_call : Tensor → Tensor → Iou → Iou;
  Iou_compute_miou : Iou → Scalar * Iou;
  Iou_reset : Iou → Iou;
  Model_call : Model → Tensor → Tensor;
  argmax : Tensor → Tensor;
  CrossEntropy2D : Tensor → Tensor → Scalar;
  get_empty_data_queue : nat → Mode → Queue;
  Queue_append : Tensor * Tensor * Tensor → Queue → Queue
}.

(** References to the [Iou] objects on the heap. *)
Abbreviation loc := positive.

Record TrainConf `{Collaborators} : Type := {
  num_classes : Z;
  get_model : Model
}.

(** The attributes of [self]. *)
Record DeeplabV3plus `{Collaborators} : Type := {
  config : TrainConf;
  model : Model;
  iou_train : loc;
  iou_val : loc;
  iou_test : loc;
  log_media : Mode → Queue
}.

(** The module, the metric objects it refers to, and what was logged. *)
Record state `{Collaborators} : Type := {
  self : DeeplabV3plus;
  heap : gmap loc Iou;
  logged : list (string * Scalar)
}.

(** A constructor call: a new object, at a reference not in use. *)
Definition alloc `{Collaborators} (v : Iou) (h : gmap loc Iou)
  : loc * gmap loc Iou :=
  let l := fresh (dom h) in (l, <[l := v]> h).

(** [DeeplabV3plus.__init__] *)
Definition init `{Collaborators} (config : TrainConf)
    (log_media_max_batches : nat) (h : gmap loc Iou) : state :=
  let '(l_train, h1) := alloc (Iou_new (num_classes config)) h in
  let '(l_val, h2) := alloc (Iou_new (num_classes config)) h1 in
  let '(l_test, h3) := alloc (Iou_new (num_classes config)) h2 in
  {| self := {| config := config;
                model := get_model config;
                iou_train := l_train;
                iou_val := l_val;
                iou_test := l_test;
                log_media := get_empty_data_queue log_media_max_batches |};
     heap := h3;
     logged := [] |}.

(** [self.log(name, value, ...)] *)
Definition log `{Collaborators} (name : string) (v : Scalar) (st : state)
  : state :=
  {| self := self st; heap := heap st; logged := logged st ++ [(name, v)] |}.

(** [self.log_media[mode].append(entry)] *)
Definition media_append `{Collaborators} (mode : Mode)
    (entry : Tensor * Tensor * Tensor) (st : state) : state :=
  let me := self st in
  {| self := {| config := config me; model := model me;
                iou_train := iou_train me; iou_val := iou_val me;
                iou_test := iou_test me;
                log_media := λ m, match m, mode with
                                  | TRAIN, TRAIN | VAL, VAL | TEST, TEST =>
                                      Queue_append entry (log_media me m)
                                  | _, _ => log_media me m
                                  end |};
     heap := heap st; logged := logged st |}.

(** A method call on the object at [l], which it mutates. *)
Definition on_object `{Collaborators} (l : loc) (f : Iou → Iou) (st : state)
  : state :=
  {| self := self st; heap := alter f l (heap st); logged := logged st |}.

(** The body shared by the three [*_step] methods, which differ in the name
    of the logged loss, the accumulator and the media queue. *)
Definition step `{Collaborators} (loss_name : string) (acc : loc) (mode : Mode)
    (batch : Tensor * Tensor) (st : state) : Scalar * state :=
  let '(inputs, labels) := batch in
  let outputs := Model_call (model (self st)) inputs in
  let predictions := argmax outputs in
  let loss := CrossEntropy2D outputs labels in
  let st := log loss_name loss st in
  let st := on_object acc (Iou_call predictions labels) st in
  let st := media_append mode (inputs, labels, predictions) st in
  (loss, st).

Definition training_step `{Collaborators} (batch : Tensor * Tensor)
    (batch_idx : nat) (st : state) : Scalar * state :=
  step "Train/loss" (iou_train (self st)) TRAIN batch st.

Definition validation_step `{Collaborators} (batch : Tensor * Tensor)
    (batch_idx : nat) (st : state) : Scalar * state :=
  step "Val/loss" (iou_val (self st)) VAL batch st.

Definition test_step `{Collaborators} (batch : Tensor * Tensor)
    (batch_idx : nat) (st : state) : Scalar * state :=
  step "Test/loss" (iou_test (self st)) TEST batch st.

(** The body shared by the three [*_epoch_end] methods: compute, log the
    mean IoU, reset. *)
Definition epoch_end `{Collaborators} (miou_name : string) (acc : loc)
    (st : state) : state :=
  match heap st !! acc with
  | Some obj =>
      let '(miou, obj) := Iou_compute_miou obj in
      let st := on_object acc (λ _, obj) st in
      let st := log miou_name miou st in
      on_object acc Iou_reset st
  | None => st
  end.

Definition training_epoch_end `{Collaborators} (st : state) : state :=
  epoch_end "Train/mIoU" (iou_train (self st)) st.

Definition validation_epoch_end `{Collaborators} (st : state) : state :=
  epoch_end "Val/mIoU" (iou_val (self st)) st.

Definition test_epoch_end `{Collaborators} (st : state) : state :=
  epoch_end "Test/mIoU" (iou_test (self st)) st.

(** The hooks the trainer calls on the module. *)
Inductive hook `{Collaborators} : Type :=
| TrainingStep (batch : Tensor * Tensor) (batch_idx : nat)
| ValidationStep (batch : Tensor * Tensor) (batch_idx : nat)
| TestStep (batch : Tensor * Tensor) (batch_idx : nat)
| TrainingEpochEnd
| ValidationEpochEnd
| TestEpochEnd.

Definition run_hook `{Collaborators} (k : hook) (st : state) : state :=
  match k with
  | TrainingStep b i => (training_step b i st).2
  | ValidationStep b i => (validation_step b i st).2
  | TestStep b i => (test_step b i st).2
  | TrainingEpochEnd => training_epoch_end st
  | ValidationEpochEnd => validation_epoch_end st
  | TestEpochEnd => test_epoch_end st
  end.

Definition run `{Collaborators} (ks : list hook) (st : state) : state :=
  foldl (λ st k, run_hook k st) st ks.

(** The phase a hook belongs to, the accumulator of a phase, and what the
    hook does to the metric object it is given. *)
Definition phase `{Collaborators} (k : hook) : Mode :=
  match k with
  | TrainingStep _ _ | TrainingEpochEnd => TRAIN
  | ValidationStep _ _ | ValidationEpochEnd => VAL
  | TestStep _ _ | TestEpochEnd => TEST
  end.

Definition accumulator `{Collaborators} (me : DeeplabV3plus) (mode : Mode)
  : loc :=
  match mode with
  | TRAIN => iou_train me
  | VAL => iou_val me
  | TEST => iou_test me
  end.

(** What a hook does to the metric object of its phase: a step folds the
    batch in, an epoch end computes and resets. *)
Definition hook_effect `{Collaborators} (me : DeeplabV3plus) (k : hook)
  : Iou → Iou :=
  match k with
  | TrainingStep (inputs, labels) _
  | ValidationStep (inputs, labels) _
  | TestStep (inputs, labels) _ =>
      Iou_call (argmax (Model_call (model me) inputs)) labels
  | TrainingEpochEnd | ValidationEpochEnd | TestEpochEnd =>
      λ obj, Iou_reset (Iou_compute_miou obj).2
  end.

(** The hooks of one phase, in call order. *)
Definition same_phase `{Collaborators} (mode : Mode) (k : hook) : bool :=
  match phase k, mode with
  | TRAIN, TRAIN | VAL, VAL | TEST, TEST => true
  | _, _ => false
  end.

Definition of_phase `{Collaborators} (mode : Mode) (ks : list hook)
  : list hook :=
  List.filter (same_phase mode) ks.

(** The name under which a hook logs its scalar. *)
Definition log_name `{Collaborators} (k : hook) : string :=
  match k with
  | TrainingStep _ _ => "Train/loss"
  | ValidationStep _ _ => "Val/loss"
  | TestStep _ _ => "Test/loss"
  | TrainingEpochEnd => "Train/mIoU"
  | ValidationEpochEnd => "Val/mIoU"
  | TestEpochEnd => "Test/mIoU"
  end.

(** The hook that ends an epoch of a phase. *)
Definition epoch_end_hook `{Collaborators} (mode : Mode) : hook :=
  match mode with
  | TRAIN => TrainingEpochEnd
  | VAL => ValidationEpochEnd
  | TEST => TestEpochEnd
  end.

(** What a hook appends to the media queue of its phase: a step appends its
    inputs, labels and predictions, an epoch end nothing. *)
Definition media_entry `{Collaborators} (me : DeeplabV3plus) (k : hook)
  : option (Tensor * Tensor * Tensor) :=
  match k with
  | TrainingStep (inputs, labels) _
  | ValidationStep (inputs, labels) _
  | TestStep (inputs, labels) _ =>
      Some (inputs, labels, argmax (Model_call (model me) inputs))
  | TrainingEpochEnd | ValidationEpochEnd | TestEpochEnd => None
  end.

(** A run id that is a single path component, not empty and neither of the
    two dot names. *)
Definition plain_name (s : string) : bool :=
  negb (String.eqb s "") && negb (String.eqb s ".")
  && negb (String.eqb s "..")
  && forallb (λ a, negb (Ascii.eqb a "/")) (list_ascii_of_string s).

End Train.

Module MetricsProofs.
Import Metrics.









(** *** Updater *)












Lemma sumN_replicate_0 n : sumN (replicate n 0%N) = 0%N.
Proof. induction n; simpl; [done|]. by rewrite IHn. Qed.



Lemma new_Empty n s : new n = Ok s → Empty s.
Proof. unfold new. case_match; [done|]. by intros [= <-]. Qed.

Lemma map_const_replicate {A B} (b : B) (l : list A) :
  map (λ _, b) l = replicate (length l) b.
Proof. induction l; simpl; [done|]. by f_equal. Qed.

Lemma reset_Empty s : well_formed s → Empty (reset s).
Proof.
  intros [Hl Hr]. unfold Empty, reset, zero_grid. simpl.
  rewrite <- Hl at 1. clear Hl. induction Hr as [|row m Hrow _ IH]; [done|].
  simpl. f_equal; [|done]. by rewrite map_const_replicate, Hrow.
Qed.





(** *** Reducer *)

Lemma add_grid_comm a b : add_grid a b = add_grid b a.
Proof.
  unfold add_grid. revert b. induction a as [|ra a IH]; intros [|rb b]; try done.
  simpl. f_equal; [|done]. clear.
  revert rb. induction ra as [|x ra IH]; intros [|y rb]; try done.
  simpl. f_equal; [lia|done].
Qed.

Lemma add_grid_assoc a b c :
  add_grid (add_grid a b) c = add_grid a (add_grid b c).
Proof.
  unfold add_grid. revert b c.
  induction a as [|ra a IH]; intros [|rb b] [|rc c]; try done.
  simpl. f_equal; [|done]. clear.
  revert rb rc. induction ra as [|x ra IH]; intros [|y rb] [|z rc]; try done.
  simpl. f_equal; [lia|done].
Qed.

Lemma merge_same n a b :
  num_classes a = n → num_classes b = n →
  merge a b = Ok {| num_classes := n;
                    counts := add_grid (counts a) (counts b) |}.
Proof. intros <- Hb. unfold merge. by rewrite decide_True. Qed.

Lemma foldr_plus_app n l1 l2 a b :
  Forall (λ s, num_classes s = n) l1 →
  foldr plus None l1 = Some a → foldr plus None l2 = Some b →
  num_classes a = n ∧
  foldr plus None (l1 ++ l2)
  = Some {| num_classes := n; counts := add_grid (counts a) (counts b) |}.
Proof.
  revert a. induction l1 as [|s l1 IH]; intros a Hn Ha Hb; [done|].
  apply Forall_cons in Hn as [Hs Hn]. simpl in *.
  destruct (foldr plus None l1) as [a1|] eqn:E1.
  - destruct (IH a1 Hn eq_refl Hb) as [Ha1 ->]. simpl in *. simplify_eq/=.
    split; [done|]. by rewrite add_grid_assoc.
  - destruct l1 as [|s' l1']; [|simpl in E1; by destruct (foldr plus None l1')].
    simpl in *. simplify_eq/=. by rewrite Hb.
Qed.

Lemma reduce_leaves n t :
  Forall (λ s, num_classes s = n) (leaves t) →
  ∃ s, reduce t = Ok s ∧ num_classes s = n ∧
       foldr plus None (leaves t) = Some s.
Proof.
  induction t as [s|l IHl r IHr]; simpl; intros Hn.
  - exists s. by inversion Hn.
  - apply Forall_app in Hn as [Hl Hr].
    destruct (IHl Hl) as (a & -> & Ha & Hfa).
    destruct (IHr Hr) as (b & -> & Hb & Hfb).
    rewrite (merge_same n) by done. eexists. split; [done|]. split; [done|].
    by destruct (foldr_plus_app n _ _ _ _ Hl Hfa Hfb) as [_ ->].
Qed.

Lemma foldr_plus_perm n l1 l2 :
  Forall (λ s, num_classes s = n) l1 → l1 ≡ₚ l2 →
  foldr plus None l1 = foldr plus None l2.
Proof.
  intros Hn. apply (foldr_permutation eq plus None).
  intros j1 a1 j2 a2 b _ H1 H2.
  rewrite Forall_lookup in Hn.
  pose proof (Hn _ _ H1). pose proof (Hn _ _ H2).
  destruct b as [b|]; simpl; f_equal.
  - f_equal; [congruence|].
    rewrite <- !add_grid_assoc. f_equal. apply add_grid_comm.
  - f_equal; [congruence|]. apply add_grid_comm.
Qed.

(** C6: on states of one class count, [merge] is commutative and
    associative; and two reductions over the same states, in whatever order
    and nesting, both succeed and give the same state. *)
Theorem merge_commutative_associative (n : nat) :
  (∀ A B, num_classes A = n → num_classes B = n → merge A B = merge B A) ∧
  (∀ A B C AB BC,
     num_classes A = n → num_classes B = n → num_classes C = n →
     merge A B = Ok AB → merge B C = Ok BC → merge AB C = merge A BC) ∧
  (∀ t1 t2,
     Forall (λ s, num_classes s = n) (leaves t1) →
     leaves t1 ≡ₚ leaves t2 →
     ∃ s, reduce t1 = Ok s ∧ reduce t2 = Ok s).
Proof.
  split; [|split].
  - intros A B HA HB. rewrite (merge_same n A B), (merge_same n B A) by done.
    by rewrite add_grid_comm.
  - intros A B C AB BC HA HB HC.
    rewrite (merge_same n A B), (merge_same n B C) by done.
    intros [= <-] [= <-].
    rewrite !(merge_same n) by done. simpl. by rewrite add_grid_assoc.
  - intros t1 t2 Hn Hperm.
    assert (Forall (λ s, num_classes s = n) (leaves t2)) as Hn2
      by (by rewrite <- Hperm).
    destruct (reduce_leaves n t1 Hn) as (s1 & -> & _ & H1).
    destruct (reduce_leaves n t2 Hn2) as (s2 & -> & _ & H2).
    exists s1. split; [done|].
    rewrite (foldr_plus_perm n _ _ Hn Hperm) in H1. congruence.
Qed.

Lemma merge_commutative_associative_witness :
  let A := {| num_classes := 2; counts := [[1; 0]; [0; 2]]%N |} in
  let B := {| num_classes := 2; counts := [[0; 3]; [1; 0]]%N |} in
  let C := {| num_classes := 2; counts := [[5; 0]; [0; 0]]%N |} in
  merge A B = merge B A ∧
  ∃ s, reduce (Join (Join (Leaf A) (Leaf B)) (Leaf C)) = Ok s ∧
       reduce (Join (Leaf C) (Join (Leaf B) (Leaf A))) = Ok s.
Proof.
  intros A B C. split.
  - apply (merge_commutative_associative 2); reflexivity.
  - apply (merge_commutative_associative 2).
    + by repeat constructor.
    + simpl. by rewrite (Permutation_app_comm [A; B] [C]),
        (Permutation_swap A B []).
Defined.

(** *** Compute *)









(** A sparse window: class 2 is absent, and the mean is taken over the other
    two classes. *)
Example mean_skips_absent_class :
  ∃ q, mean (compute {| num_classes := 3;
                        counts := [[2; 1; 0]; [0; 1; 0]; [0; 0; 0]]%N |})
       = Some q ∧ (q == 7 # 12)%Q.
Proof. eexists. split; [reflexivity|]. reflexivity. Qed.

Lemma entry_replicate_0 n c : entry (replicate n 0%N) c = 0%N.
Proof.
  unfold entry. destruct (replicate n 0%N !! c) as [x|] eqn:E; [|done].
  by apply lookup_replicate_1 in E as [-> _].
Qed.

Lemma iou_class_zero_grid n c : iou_class (zero_grid n) c = None.
Proof.
  assert (row (zero_grid n) c = replicate n 0%N ∨ row (zero_grid n) c = [])
    as Hr.
  { unfold row, zero_grid.
    destruct (replicate n (replicate n 0%N) !! c) as [r|] eqn:E; [|by right].
    left. by apply lookup_replicate_1 in E as [-> _]. }
  assert (cell (zero_grid n) c c = 0%N) as Hcell.
  { unfold cell. destruct Hr as [-> | ->]; [|done]. apply entry_replicate_0. }
  assert (row_sum (zero_grid n) c = 0%N) as Hrow.
  { unfold row_sum. destruct Hr as [-> | ->]; [|done]. apply sumN_replicate_0. }
  assert (col_sum (zero_grid n) c = 0%N) as Hcol.
  { unfold col_sum, zero_grid. change map with (@fmap list _).
    rewrite fmap_replicate, entry_replicate_0. apply sumN_replicate_0. }
  unfold iou_class, denom, FP, FN, TP. rewrite Hcell, Hrow, Hcol. done.
Qed.

Lemma compute_Empty s : Empty s → compute s = all_undefined (num_classes s).
Proof.
  intros He. unfold compute. rewrite He.
  rewrite (map_ext _ (λ _, None) (iou_class_zero_grid _)).
  rewrite map_const_replicate, length_seq.
  unfold all_undefined. f_equal. unfold mean_defined, defined_values.
  by induction (num_classes s).
Qed.

(** C7: in the empty state [compute] returns the result whose per-class
    entries and mean are all the undefined marker; a freshly constructed
    accumulator and an accumulator just reset are in that state. *)
Theorem compute_empty_all_undefined :
  (∀ s, Empty s → compute s = all_undefined (num_classes s)) ∧
  (∀ n s, new n = Ok s →
          Empty s ∧ compute s = all_undefined (Z.to_nat n)) ∧
  (∀ s, well_formed s →
        Empty (reset s) ∧ compute (reset s) = all_undefined (num_classes s)).
Proof.
  split; [|split].
  - apply compute_Empty.
  - intros n s Hnew. pose proof (new_Empty _ _ Hnew) as He.
    split; [done|]. rewrite compute_Empty by done.
    unfold new in Hnew. case_match; [done|]. by injection Hnew as <-.
  - intros s Hwf. pose proof (reset_Empty _ Hwf) as He.
    split; [done|]. by rewrite compute_Empty.
Qed.

Lemma compute_empty_all_undefined_witness :
  (∃ s, new 3 = Ok s ∧ compute s = all_undefined 3) ∧
  compute (reset {| num_classes := 2; counts := [[4; 1]; [0; 2]]%N |})
  = all_undefined 2.
Proof.
  split.
  - eexists. split; [reflexivity|].
    by apply (proj1 (proj2 compute_empty_all_undefined) 3).
  - apply (proj2 (proj2 compute_empty_all_undefined)
             {| num_classes := 2; counts := [[4; 1]; [0; 2]]%N |}).
    split; [reflexivity|]. by repeat constructor.
Defined.

(** The two end-to-end cases of the specification: every prediction wrong,
    and every prediction right. *)
Example total_disjoint_case :
  ∃ s r, new 2 = Ok s ∧
         update s [0; 0; 0] [1; 1; 1] None = (Ok (), r) ∧
         per_class (compute r) = [Some (0 # 3); Some (0 # 3)] ∧
         ∃ q, mean (compute r) = Some q ∧ (q == 0)%Q.
Proof.
  do 2 eexists. split; [reflexivity|]. split; [reflexivity|].
  split; [reflexivity|]. eexists. split; reflexivity.
Qed.

Example perfect_agreement_case :
  ∃ s r, new 2 = Ok s ∧
         update s [0; 1; 1] [0; 1; 1] (Some 255) = (Ok (), r) ∧
         per_class (compute r) = [Some (1 # 1); Some (2 # 2)] ∧
         ∃ q, mean (compute r) = Some q ∧ (q == 1)%Q.
Proof.
  do 2 eexists. split; [reflexivity|]. split; [reflexivity|].
  split; [reflexivity|]. eexists. split; reflexivity.
Qed.

End MetricsProofs.

Module DatasetConfProofs.
Import DatasetConf.

Section validate_dataconf.
Context `{Pydantic}.
Local Open Scope string_scope.

Lemma keys_lapa : keys = ["lapa"].
Proof. reflexivity. Qed.

Lemma subscript_lapa : subscript (VStr "lapa") = Ok make_LapaConf.
Proof. reflexivity. Qed.

Lemma subscript_KeyError v :
  (∀ s, v = VStr s → s ∉ keys) → subscript v = Err KeyError.
Proof.
  intros Hv. destruct v as [| | |s]; try done.
  unfold subscript, valid_options. simpl.
  case_decide as E; [|done]. simpl in E. exfalso.
  apply (Hv s eq_refl). rewrite keys_lapa, <- E. apply list_elem_of_here.
Qed.

Lemma dom_lapa_config d b w rh rw : dom (lapa_config d b w rh rw) = lapa_fields.
Proof.
  unfold lapa_config, lapa_fields. rewrite !dom_insert_L, dom_empty_L.
  set_solver.
Qed.

(** C9: a configuration whose [name] is not a key of [valid_options] (the
    only key being "lapa") makes [validate_dataconf] raise [ValueError] with a
    message that lists the valid options; a configuration named "lapa" with
    the six fields of [LapaConf], each of its declared type, is returned as a
    [LapaConf] holding these fields. *)
Theorem validate_dataconf_dispatch :
  (∀ s, str_validator (VStr s) = Some s) →
  (∀ z, int_validator (VInt z) = Some z) →
  (∀ cfg : DictConfig,
     (∀ s, getattr cfg "name" = VStr s → s ∉ keys) →
     validate_dataconf cfg
     = Err (ValueError ("Invalid Config: '" ++ py_str (getattr cfg "name")
              ++ "' is not a valid dataset. Valid Options: ['lapa']"))) ∧
  (∀ d b w rh rw,
     validate_dataconf (lapa_config d b w rh rw)
     = Ok (Lapa {| name := "lapa"; data_dir := d; batch_size := b;
                   num_workers := w; resize_h := rh; resize_w := rw |})).
Proof.
  intros Hstr Hint. split.
  - intros cfg Hname. unfold validate_dataconf.
    rewrite (subscript_KeyError _ Hname). done.
  - intros d b w rh rw. unfold validate_dataconf.
    assert (getattr (lapa_config d b w rh rw) "name" = VStr "lapa") as ->
      by done.
    rewrite subscript_lapa. unfold make_LapaConf.
    rewrite decide_True by apply dom_lapa_config.
    unfold lapa_validate, lapa_config.
    repeat (rewrite ?lookup_insert_eq; rewrite ?lookup_insert_ne by done).
    simpl. rewrite !Hstr, !Hint. done.
Qed.

End validate_dataconf.

(** What the dispatch does with a missing name, an unexpected field and a
    field of the wrong type, under the strict validators. *)
Example validate_dataconf_examples :
  @validate_dataconf strict ∅
  = Err (ValueError
      "Invalid Config: 'None' is not a valid dataset. Valid Options: ['lapa']")
  ∧ @validate_dataconf strict
      (<["augment" := VBool true]> (lapa_config "/data" 8 2 64 64))%string
    = Err TypeError
  ∧ @validate_dataconf strict
      (<["batch_size" := VStr "many"]> (lapa_config "/data" 8 2 64 64))%string
    = Err ValidationError.
Proof. repeat split; reflexivity. Qed.

Lemma validate_dataconf_dispatch_witness :
  @validate_dataconf strict {[ "name" := VStr "celeba" ]}%string
  = Err (ValueError
      "Invalid Config: 'celeba' is not a valid dataset. Valid Options: ['lapa']")
  ∧ @validate_dataconf strict (lapa_config "/data/lapa" 32 4 256 256)
    = Ok (Lapa {| name := "lapa"; data_dir := "/data/lapa"; batch_size := 32;
                  num_workers := 4; resize_h := 256; resize_w := 256 |}).
Proof.
  split.
  - rewrite (proj1 (@validate_dataconf_dispatch strict
                      (λ _, eq_refl) (λ _, eq_refl))
               {[ "name" := VStr "celeba" ]}%string); [reflexivity|].
    intros s Hs. vm_compute in Hs. injection Hs as <-.
    rewrite keys_lapa. by intros ?%list_elem_of_singleton.
  - apply (proj2 (@validate_dataconf_dispatch strict
                    (λ _, eq_refl) (λ _, eq_refl))).
Defined.

End DatasetConfProofs.

Module TrainProofs.
Import Train.

(** *** The log directory *)

Example ascii_decimal_examples :
  ascii_decimal "0" = Ok 0 ∧ ascii_decimal " 00 " = Ok 0 ∧
  ascii_decimal "-0" = Ok 0 ∧ ascii_decimal "1_0" = Ok 10 ∧
  ascii_decimal "+3" = Ok 3 ∧ ascii_decimal "-12" = Ok (-12) ∧
  ascii_decimal "" = Err ValueError ∧ ascii_decimal "0.0" = Err ValueError ∧
  ascii_decimal "1__0" = Err ValueError ∧
  ascii_decimal "_1" = Err ValueError ∧
  ascii_decimal "1_" = Err ValueError ∧
  ascii_decimal "- 1" = Err ValueError ∧
  ascii_decimal (String (ascii_of_nat 28) "0") = Err ValueError.
Proof. repeat split; reflexivity. Qed.

Example is_rank_zero_examples :
  let is_rank_zero := is_rank_zero (builtins := ascii_int) in
  is_rank_zero ∅ = Ok true ∧
  is_rank_zero {[ "LOCAL_RANK" := "0"; "NODE_RANK" := "0" ]}%string = Ok true ∧
  is_rank_zero {[ "LOCAL_RANK" := "0"; "NODE_RANK" := "1" ]}%string = Ok false ∧
  is_rank_zero {[ "LOCAL_RANK" := "2" ]}%string = Ok false ∧
  is_rank_zero {[ "LOCAL_RANK" := "1"; "NODE_RANK" := "x" ]}%string
  = Err ValueError.
Proof. repeat split; reflexivity. Qed.

Section log_dir.
Context {builtins : Builtins}.


Lemma rank_error_iff environ key e :
  rank environ key = Err e ↔
  e = ValueError ∧ ∃ s, environ !! key = Some s ∧ int_of_str s = None.
Proof.
  unfold rank. destruct (environ !! key) as [s|].
  - destruct (int_of_str s) as [z|] eqn:E; split.
    + done.
    + intros (_ & s' & [= <-] & Hs). congruence.
    + intros [= <-]. eauto.
    + by intros [-> _].
  - split; [done|]. by intros (_ & s & ? & _).
Qed.


Lemma is_rank_zero_false environ :
  is_rank_zero environ = Ok false ↔
  ∃ l n, rank environ "LOCAL_RANK" = Ok l ∧ rank environ "NODE_RANK" = Ok n ∧
         ¬ (l = 0 ∧ n = 0).
Proof.
  unfold is_rank_zero.
  destruct (rank environ "LOCAL_RANK") as [l|];
    [|by split; [|intros (? & ? & ? & _)]].
  destruct (rank environ "NODE_RANK") as [n|];
    [|by split; [|intros (? & ? & _ & ? & _)]].
  split.
  - intros Hf. exists l, n. split; [done|]. split; [done|].
    intros [-> ->]. done.
  - intros (l0 & n0 & [= <-] & [= <-] & Hn).
    destruct (Z.eqb_spec l 0), (Z.eqb_spec n 0); simpl; try done.
    exfalso. by apply Hn.
Qed.

Example joinpath_examples :
  joinpath ["/"; "repo"]%string "logs" = ["/"; "repo"; "logs"]%string ∧
  joinpath ["/"; "repo"; "logs"]%string "a/./b//c"
  = ["/"; "repo"; "logs"; "a"; "b"; "c"]%string ∧
  joinpath ["/"; "repo"; "logs"]%string "/tmp/x" = ["/"; "tmp"; "x"]%string ∧
  lineage ["/"; "repo"; "logs"]%string
  = [["/"]; ["/"; "repo"]; ["/"; "repo"; "logs"]]%string.
Proof. repeat split; reflexivity. Qed.

Lemma joinpath_relative p s :
  leading_slashes s = 0%nat → joinpath p s = p ++ components s.
Proof. unfold joinpath. by intros ->. Qed.

Lemma joinpath_nonempty p s : p ≠ [] → joinpath p s ≠ [].
Proof.
  intros Hp. unfold joinpath. destruct (leading_slashes s) as [|[|[|k]]]; try done.
  by destruct p.
Qed.

Lemma lineage_self (p : Path) : p ≠ [] → p ∈ lineage p.
Proof.
  intros Hp. unfold lineage. apply list_elem_of_fmap. exists (length p).
  split; [by rewrite firstn_all|].
  apply elem_of_seq. destruct p; simpl in *; [done|lia].
Qed.

Lemma lineage_length (p q : Path) : q ∈ lineage p → (length q ≤ length p)%nat.
Proof.
  unfold lineage. intros (k & -> & _)%list_elem_of_fmap.
  rewrite length_take. lia.
Qed.

Lemma elem_of_removelast {A} (x : A) l : x ∈ removelast l → x ∈ l.
Proof.
  induction l as [|y [|z l] IH]; simpl; [done| |].
  - by intros ?%elem_of_nil.
  - intros [->|Hx]%elem_of_cons; [left|right; by apply IH].
Qed.

Lemma mkdir_parents_exist_ok_clear {C} (p : Path) (fs : filesystem C) :
  (∀ q, q ∈ lineage p → files fs !! q = None) → p ≠ [] →
  mkdir_parents_exist_ok p fs
  = Ok {| dirs := dirs fs ∪ list_to_set (lineage p); files := files fs |}.
Proof.
  intros Hfree Hp. unfold mkdir_parents_exist_ok.
  assert (existsb (is_file fs) (removelast (lineage p)) = false) as ->.
  { apply not_true_is_false. intros (q & Hq & Hf)%existsb_exists.
    apply list_elem_of_In, elem_of_removelast, Hfree in Hq.
    unfold is_file in Hf. rewrite Hq in Hf.
    apply bool_decide_eq_true in Hf. by destruct Hf. }
  assert (is_file fs p = false) as ->; [|done].
  unfold is_file. rewrite (Hfree p (lineage_self p Hp)).
  apply bool_decide_eq_false. by intros [].
Qed.



End log_dir.


(** *** The three accumulators *)

Section accumulators.
Context `{Collaborators}.

Lemma run_hook_self k st :
  iou_train (self (run_hook k st)) = iou_train (self st) ∧
  iou_val (self (run_hook k st)) = iou_val (self st) ∧
  iou_test (self (run_hook k st)) = iou_test (self st) ∧
  model (self (run_hook k st)) = model (self st).
Proof.
  destruct k as [[i l] ?|[i l] ?|[i l] ?| | |]; simpl; try done;
    unfold training_epoch_end, validation_epoch_end, test_epoch_end, epoch_end;
    destruct (heap st !! _); try done; by destruct (Iou_compute_miou _).
Qed.

Lemma run_hook_dom k st : dom (heap (run_hook k st)) = dom (heap st).
Proof.
  destruct k as [[i l] ?|[i l] ?|[i l] ?| | |]; simpl;
    try apply dom_alter_L;
    unfold training_epoch_end, validation_epoch_end, test_epoch_end, epoch_end;
    destruct (heap st !! _); try done;
    destruct (Iou_compute_miou _); simpl; by rewrite !dom_alter_L.
Qed.

Lemma run_snoc ks k st : run (ks ++ [k]) st = run_hook k (run ks st).
Proof. unfold run. by rewrite foldl_app. Qed.

Lemma run_invariant ks st :
  iou_train (self (run ks st)) = iou_train (self st) ∧
  iou_val (self (run ks st)) = iou_val (self st) ∧
  iou_test (self (run ks st)) = iou_test (self st) ∧
  model (self (run ks st)) = model (self st) ∧
  dom (heap (run ks st)) = dom (heap st).
Proof.
  induction ks as [|k ks IH] using rev_ind; [done|].
  rewrite run_snoc. destruct IH as (<- & <- & <- & <- & <-).
  destruct (run_hook_self k (run ks st)) as (-> & -> & -> & ->).
  by rewrite run_hook_dom.
Qed.

Lemma step_heap name acc mode batch st l :
  heap (step name acc mode batch st).2 !! l
  = if decide (l = acc)
    then Iou_call (argmax (Model_call (model (self st)) batch.1)) batch.2
         <$> heap st !! l
    else heap st !! l.
Proof.
  destruct batch as [inputs labels]. simpl. rewrite lookup_alter.
  destruct (decide (acc = l)) as [->|Hne].
  - by rewrite !decide_True by done.
  - by rewrite !decide_False by done.
Qed.

Lemma epoch_end_heap name acc st l :
  heap (epoch_end name acc st) !! l
  = if decide (l = acc)
    then (λ obj, Iou_reset (Iou_compute_miou obj).2) <$> heap st !! l
    else heap st !! l.
Proof.
  unfold epoch_end. destruct (heap st !! acc) as [obj|] eqn:E.
  - destruct (Iou_compute_miou obj) as [miou obj1] eqn:Ec. simpl.
    rewrite !lookup_alter.
    destruct (decide (acc = l)) as [<-|Hne].
    + rewrite !decide_True by done. rewrite E. simpl. by rewrite Ec.
    + by rewrite !decide_False by done.
  - destruct (decide (l = acc)) as [->|Hne]; [by rewrite E|done].
Qed.

Lemma run_hook_heap k st l :
  heap (run_hook k st) !! l
  = if decide (l = accumulator (self st) (phase k))
    then hook_effect (self st) k <$> heap st !! l
    else heap st !! l.
Proof.
  destruct k as [[i lb] ?|[i lb] ?|[i lb] ?| | |].
  1-3: apply step_heap.
  all: apply epoch_end_heap.
Qed.

Lemma init_accumulators config n (h0 : gmap loc Iou) :
  let st0 := init config n h0 in
  NoDup [iou_train (self st0); iou_val (self st0); iou_test (self st0)] ∧
  ∀ mode, (accumulator (self st0) mode ∉ dom h0) ∧
          heap st0 !! accumulator (self st0) mode
          = Some (Iou_new (num_classes config)).
Proof.
  unfold init, alloc. simpl.
  set (v := Iou_new (num_classes config)).
  set (l1 := fresh (dom h0)).
  set (l2 := fresh (dom (<[l1:=v]> h0))).
  set (l3 := fresh (dom (<[l2:=v]> (<[l1:=v]> h0)))).
  pose proof (is_fresh (dom h0)) as F1. fold l1 in F1.
  pose proof (is_fresh (dom (<[l1:=v]> h0))) as F2. fold l2 in F2.
  pose proof (is_fresh (dom (<[l2:=v]> (<[l1:=v]> h0)))) as F3. fold l3 in F3.
  rewrite dom_insert_L in F2. rewrite !dom_insert_L in F3.
  rewrite elem_of_union, elem_of_singleton in F2.
  rewrite !elem_of_union, !elem_of_singleton in F3.
  assert (l1 ≠ l2) by (intros E; apply F2; by left).
  assert (l1 ≠ l3) by (intros E; apply F3; right; by left).
  assert (l2 ≠ l3) by (intros E; apply F3; by left).
  split.
  - apply NoDup_cons. split; [|apply NoDup_cons; split; [|apply NoDup_singleton]].
    + rewrite !elem_of_cons. intros [?|[?|?%elem_of_nil]]; done.
    + intros [?|?%elem_of_nil]%elem_of_cons; done.
  - intros [| |]; simpl; (split; [tauto|]).
    + by rewrite !lookup_insert_ne, lookup_insert_eq by done.
    + by rewrite lookup_insert_ne, lookup_insert_eq by done.
    + by rewrite lookup_insert_eq.
Qed.

(** C8: [__init__] constructs three metric objects, at three different
    references none of which was in use, one per phase.  After any hooks, a
    further hook leaves the three references as they are, leaves every object
    other than the accumulator of its own phase as it is, and replaces that
    accumulator by a function of the batch and of that accumulator alone, so
    that no accumulator ever takes part in the new value of another. *)
Theorem phase_accumulators_are_isolated (config : TrainConf)
    (log_media_max_batches : nat) (h0 : gmap loc Iou)
    (ks : list hook) (k : hook) :
  let st0 := init config log_media_max_batches h0 in
  let st := run ks st0 in
  let st' := run_hook k st in
  let me := self st in
  NoDup [iou_train me; iou_val me; iou_test me] ∧
  (∀ mode, (accumulator me mode ∉ dom h0) ∧
           heap st0 !! accumulator me mode
           = Some (Iou_new (num_classes config))) ∧
  (∀ mode, accumulator (self st') mode = accumulator me mode) ∧
  (∀ l, l ≠ accumulator me (phase k) → heap st' !! l = heap st !! l) ∧
  (∃ obj, heap st !! accumulator me (phase k) = Some obj ∧
          heap st' !! accumulator me (phase k)
          = Some (hook_effect me k obj)).
Proof.
  intros st0 st st' me.
  destruct (run_invariant ks st0) as (Ht & Hv & Hte & _ & Hdom).
  fold st me in Ht, Hv, Hte, Hdom.
  destruct (init_accumulators config log_media_max_batches h0) as [Hnd Hinit].
  fold st0 in Hnd, Hinit.
  assert (∀ mode, accumulator me mode = accumulator (self st0) mode) as Hacc
    by (by intros [| |]).
  split; [by rewrite Ht, Hv, Hte|].
  split; [intros mode; rewrite Hacc; apply Hinit|].
  split.
  { destruct (run_hook_self k st) as (? & ? & ? & _). by intros [| |]. }
  split.
  { intros l Hl. unfold st'. rewrite run_hook_heap. fold me.
    by rewrite decide_False. }
  assert (is_Some (heap st !! accumulator me (phase k))) as [obj Hobj].
  { apply elem_of_dom. rewrite Hdom, Hacc. apply elem_of_dom.
    destruct (Hinit (phase k)) as [_ ->]. done. }
  exists obj. split; [done|].
  unfold st'. rewrite run_hook_heap. fold me.
  rewrite decide_True by done. by rewrite Hobj.
Qed.

End accumulators.

End TrainProofs.

(** ** Further properties of seg_lapa/train.py *)
Module TrainCoverage.
Import Train TrainProofs.

(** *** Rank and log directory *)

Lemma is_rank_zero_error_iff {builtins : Builtins}
    (environ : gmap string string) (e : exn) :
  is_rank_zero environ = Err e ↔
  e = ValueError ∧
  ((∃ s, environ !! "LOCAL_RANK"%string = Some s ∧ int_of_str s = None) ∨
   (∃ s, environ !! "NODE_RANK"%string = Some s ∧ int_of_str s = None)).
Proof.
  unfold is_rank_zero.
  destruct (rank environ "LOCAL_RANK") as [l|el] eqn:El.
  - destruct (rank environ "NODE_RANK") as [n|en] eqn:En.
    + split; [by destruct ((l =? 0) && (n =? 0))|].
      intros [_ [Hm|Hm]].
      * assert (rank environ "LOCAL_RANK" = Err ValueError) as Hr
          by (by apply rank_error_iff). congruence.
      * assert (rank environ "NODE_RANK" = Err ValueError) as Hr
          by (by apply rank_error_iff). congruence.
    + apply rank_error_iff in En as [-> Hm]. split.
      * intros [= <-]. split; [done|by right].
      * by intros [-> _].
  - apply rank_error_iff in El as [-> Hm]. split.
    + intros [= <-]. split; [done|by left].
    + by intros [-> _].
Qed.

(** X1: [is_rank_zero] raises exactly when [LOCAL_RANK] or [NODE_RANK] is
    set to a string on which [int] raises, and then it raises [ValueError]:
    both variables are read before they are compared, so a malformed
    [NODE_RANK] raises even when [LOCAL_RANK] is not zero.  It answers
    [False] exactly when both read as integers that are not both 0. *)
Theorem is_rank_zero_outcomes {builtins : Builtins}
    (environ : gmap string string) :
  let malformed key :=
    ∃ s, environ !! key = Some s ∧ int_of_str s = None in
  (∀ e, is_rank_zero environ = Err e →
        e = ValueError ∧
        (malformed "LOCAL_RANK"%string ∨ malformed "NODE_RANK"%string)) ∧
  (malformed "LOCAL_RANK"%string ∨ malformed "NODE_RANK"%string →
   is_rank_zero environ = Err ValueError) ∧
  (is_rank_zero environ = Ok false ↔
   ∃ l n, rank environ "LOCAL_RANK" = Ok l ∧ rank environ "NODE_RANK" = Ok n ∧
          ¬ (l = 0 ∧ n = 0)).
Proof.
  intros malformed. split; [|split].
  - intros e He. by apply is_rank_zero_error_iff in He.
  - intros Hm. by apply is_rank_zero_error_iff.
  - apply is_rank_zero_false.
Qed.

Lemma is_rank_zero_outcomes_witness :
  is_rank_zero (builtins := ascii_int)
    {[ "LOCAL_RANK" := "1"; "NODE_RANK" := "node-0" ]}%string
  = Err ValueError.
Proof.
  apply (is_rank_zero_outcomes (builtins := ascii_int)
           {[ "LOCAL_RANK" := "1"; "NODE_RANK" := "node-0" ]}%string).
  right. exists "node-0"%string. split; reflexivity.
Defined.

Lemma log_dir_nonempty (project_root : Path) run_id :
  joinpath (joinpath project_root LOGS_DIR) run_id ≠ [].
Proof.
  apply joinpath_nonempty. rewrite joinpath_relative by done.
  by destruct project_root.
Qed.

Lemma train_yaml_child (d : Path) :
  joinpath d "train.yaml" = d ++ ["train.yaml"%string].
Proof. by rewrite joinpath_relative. Qed.

Lemma mkdir_parents_exist_ok_inv {C} (p : Path) (fs fs' : filesystem C) :
  mkdir_parents_exist_ok p fs = Ok fs' →
  (∀ q, q ∈ removelast (lineage p) → files fs !! q = None) ∧
  files fs !! p = None ∧
  fs' = {| dirs := dirs fs ∪ list_to_set (lineage p); files := files fs |}.
Proof.
  unfold mkdir_parents_exist_ok.
  destruct (existsb _ _) eqn:Ex; [done|].
  destruct (is_file fs p) eqn:Ep; [done|]. intros [= <-].
  split; [|split; [|done]].
  - intros q Hq. destruct (files fs !! q) eqn:Eq; [|done]. exfalso.
    assert (existsb (is_file fs) (removelast (lineage p)) = true); [|congruence].
    apply existsb_exists. exists q. split; [by apply list_elem_of_In|].
    unfold is_file. apply bool_decide_eq_true. by rewrite Eq.
  - unfold is_file in Ep. apply bool_decide_eq_false in Ep.
    destruct (files fs !! p); [|done]. exfalso. by apply Ep.
Qed.

Lemma save_inv {C} (cfg : C) (f : Path) (fs fs' : filesystem C) :
  save cfg f fs = Ok fs' →
  (f ∉ dirs fs) ∧ (removelast f ∈ dirs fs) ∧
  fs' = {| dirs := dirs fs; files := <[f := cfg]> (files fs) |}.
Proof.
  unfold save. case_bool_decide; [done|]. case_bool_decide; [|done].
  by intros [= <-].
Qed.

Lemma lineage_longer (p q : Path) (name : string) :
  q ∈ lineage p → q ≠ p ++ [name].
Proof.
  intros Hq%lineage_length ->. rewrite length_app in Hq. simpl in Hq. lia.
Qed.

Lemma lineage_snoc (p : Path) :
  p ≠ [] → lineage p = removelast (lineage p) ++ [p].
Proof.
  intros Hp. unfold lineage. destruct (length p) as [|n] eqn:En.
  { by destruct p. }
  rewrite seq_S, fmap_app. simpl. rewrite removelast_last.
  do 2 f_equal. rewrite <- En. apply firstn_all.
Qed.

Lemma lineage_free {C} (p : Path) (fs : filesystem C) :
  p ≠ [] →
  (∀ q, q ∈ removelast (lineage p) → files fs !! q = None) →
  files fs !! p = None →
  ∀ q, q ∈ lineage p → files fs !! q = None.
Proof.
  intros Hp Hab Hself q. rewrite (lineage_snoc p Hp).
  intros [?|Hq%list_elem_of_singleton]%elem_of_app; subst; auto.
Qed.


(** X3: a call that returned a path can be repeated: with the same
    arguments the second call returns the same path and leaves the file system
    exactly as the first call left it (an existing log directory is accepted,
    the config is written over itself); on rank zero a second call with
    another config succeeds too and replaces the saved config. *)
Theorem create_log_dir_again {builtins : Builtins} {C}
    (project_root : Path)
    (environ : gmap string string) (cfg cfg' : C) (run_id : string)
    (fs fs1 : filesystem C) (p : Path) :
  create_log_dir project_root environ cfg run_id fs = (Ok p, fs1) →
  create_log_dir project_root environ cfg run_id fs1 = (Ok p, fs1) ∧
  (is_rank_zero environ = Ok true →
   create_log_dir project_root environ cfg' run_id fs1
   = (Ok p, {| dirs := dirs fs1;
               files := <[joinpath p "train.yaml" := cfg']> (files fs1) |})).
Proof.
  unfold create_log_dir.
  destruct (is_rank_zero environ) as [[|]|]; [|by intros [= <- <-]|done].
  set (log_dir := joinpath (joinpath project_root LOGS_DIR) run_id).
  pose proof (log_dir_nonempty project_root run_id) as Hne. fold log_dir in Hne.
  rewrite (train_yaml_child log_dir).
  destruct (mkdir_parents_exist_ok log_dir fs) as [fs0|] eqn:Em; [|done].
  apply mkdir_parents_exist_ok_inv in Em as (Hab & Hp & ->).
  destruct (save _ _ _) as [fs2|] eqn:Es; [|done].
  apply save_inv in Es as (Hnd & Hpar & ->). cbn [dirs files] in Hnd, Hpar.
  rewrite removelast_last in Hpar.
  intros [= <- <-]. rewrite (train_yaml_child log_dir).
  pose proof (lineage_free log_dir fs Hne Hab Hp) as Hfree.
  assert (∀ c c' : C,
    match mkdir_parents_exist_ok log_dir
            {| dirs := dirs fs ∪ list_to_set (lineage log_dir);
               files := <[log_dir ++ ["train.yaml"%string] := c]> (files fs) |}
    with
    | Ok fs3 => save c' (log_dir ++ ["train.yaml"%string]) fs3
    | Err e => Err e
    end
    = Ok {| dirs := dirs fs ∪ list_to_set (lineage log_dir);
            files := <[log_dir ++ ["train.yaml"%string] := c']>
                       (<[log_dir ++ ["train.yaml"%string] := c]> (files fs)) |})
    as Hagain.
  { intros c c'. rewrite mkdir_parents_exist_ok_clear; [|simpl|done].
    - cbn [dirs files]. rewrite <- (assoc_L (∪)), (idemp_L (∪)).
      unfold save. cbn [dirs files].
      rewrite (bool_decide_eq_false_2 _ Hnd).
      rewrite removelast_last. by rewrite (bool_decide_eq_true_2 _ Hpar).
    - intros q Hq. rewrite lookup_insert_ne
        by (intros E; by apply (lineage_longer log_dir q "train.yaml")).
      by apply Hfree. }
  split.
  - pose proof (Hagain cfg cfg) as Hc.
    destruct (mkdir_parents_exist_ok log_dir _) as [fs3|]; [|done].
    rewrite Hc. by rewrite insert_insert_eq.
  - intros _. simpl. pose proof (Hagain cfg cfg') as Hc.
    destruct (mkdir_parents_exist_ok log_dir _) as [fs3|]; [|done].
    by rewrite Hc.
Qed.

Lemma create_log_dir_again_witness :
  let fs := {| dirs := {[ ["/"; "repo"] ]}; files := ∅ |}%string in
  let p := ["/"; "repo"; "logs"; "1a2b3c4d"]%string in
  let fs1 := {| dirs := {[ ["/"; "repo"]%string ]} ∪ list_to_set (lineage p);
                files := {[ ["/"; "repo"; "logs"; "1a2b3c4d";
                             "train.yaml"]%string := 7 ]} |} in
  let create_log_dir := create_log_dir (builtins := ascii_int) (C := Z) in
  create_log_dir ["/"; "repo"]%string ∅ 7 "1a2b3c4d" fs = (Ok p, fs1) ∧
  create_log_dir ["/"; "repo"]%string ∅ 7 "1a2b3c4d" fs1 = (Ok p, fs1).
Proof.
  intros fs p fs1 cld.
  assert (cld ["/"; "repo"]%string ∅ 7 "1a2b3c4d" fs = (Ok p, fs1))
    as Hfirst by reflexivity.
  split; [exact Hfirst|].
  exact (proj1 (create_log_dir_again (builtins := ascii_int)
                  ["/"; "repo"]%string ∅ 7 7 "1a2b3c4d" fs fs1 p Hfirst)).
Defined.

(** X4: a call on a process one of whose rank variables [int] cannot
    read raises [ValueError], and a rank-zero call that finds a regular file
    in the place of the log directory or of a directory above it raises
    [OSError]; in both cases the file system is left as it was. *)
Theorem create_log_dir_fails_untouched {builtins : Builtins} {C}
    (project_root : Path)
    (environ : gmap string string) (cfg : C) (run_id : string)
    (fs : filesystem C) :
  let log_dir := joinpath (joinpath project_root LOGS_DIR) run_id in
  let out := create_log_dir project_root environ cfg run_id fs in
  let malformed key :=
    ∃ s, environ !! key = Some s ∧ int_of_str s = None in
  (malformed "LOCAL_RANK"%string ∨ malformed "NODE_RANK"%string →
   out = (Err ValueError, fs)) ∧
  (is_rank_zero environ = Ok true →
   (∃ q, q ∈ lineage log_dir ∧ is_Some (files fs !! q)) →
   ∃ errno, out = (Err (OSError errno), fs)).
Proof.
  intros log_dir out malformed. unfold out, create_log_dir. split.
  - intros Hm.
    assert (is_rank_zero environ = Err ValueError) as ->
      by (by apply is_rank_zero_error_iff).
    done.
  - intros -> (q & Hq & Hfile). fold log_dir.
    unfold mkdir_parents_exist_ok.
    destruct (existsb _ _) eqn:Ex; [by eexists|].
    destruct (is_file fs log_dir) eqn:Ep; [by eexists|]. exfalso.
    assert (files fs !! q = None) as Hnone; [|rewrite Hnone in Hfile; by destruct Hfile].
    apply (lineage_free log_dir fs); [apply log_dir_nonempty| | |done].
    + intros q' Hq'. destruct (files fs !! q') eqn:Eq; [|done]. exfalso.
      assert (existsb (is_file fs) (removelast (lineage log_dir)) = true);
        [|congruence].
      apply existsb_exists. exists q'. split; [by apply list_elem_of_In|].
      unfold is_file. apply bool_decide_eq_true. by rewrite Eq.
    + unfold is_file in Ep. apply bool_decide_eq_false in Ep.
      destruct (files fs !! log_dir); [|done]. exfalso. by apply Ep.
Qed.

Lemma create_log_dir_fails_untouched_witness :
  let fs := {| dirs := {[ ["/"; "repo"]%string ]};
               files := {[ ["/"; "repo"; "logs"]%string := 1 ]} |} in
  ∃ errno, create_log_dir (builtins := ascii_int) ["/"; "repo"]%string ∅ 7
             "1a2b3c4d" fs
           = (Err (OSError errno), fs).
Proof.
  intros fs.
  apply (create_log_dir_fails_untouched (builtins := ascii_int)
             ["/"; "repo"]%string ∅ 7
           "1a2b3c4d" fs); [reflexivity|].
  exists ["/"; "repo"; "logs"]%string. split; [|by eexists].
  apply list_elem_of_In. simpl. auto.
Defined.

Lemma lineage_elem (p q : Path) :
  q ∈ lineage p ↔ ∃ k, (1 ≤ k ≤ length p)%nat ∧ q = take k p.
Proof.
  unfold lineage. rewrite list_elem_of_fmap. split.
  - intros (k & -> & Hk%elem_of_seq). exists k. split; [lia|done].
  - intros (k & Hk & ->). exists k. split; [done|]. apply elem_of_seq. lia.
Qed.

Lemma lineage_child (p q : Path) (name : string) :
  q ∈ lineage p → q ∈ lineage (p ++ [name]).
Proof.
  rewrite !lineage_elem. intros (k & Hk & ->). exists k.
  rewrite length_app. simpl. split; [lia|]. by rewrite take_app_le by lia.
Qed.

Lemma lineage_closed (p d q : Path) :
  d ∈ lineage p → q ∈ lineage d → q ∈ lineage p.
Proof.
  rewrite !lineage_elem. intros (j & Hj & ->) (k & Hk & ->).
  rewrite length_take in Hk. exists k. split; [lia|].
  rewrite take_take. f_equal. lia.
Qed.

(** X5: on a file system whose directories all have their ancestors, a
    rank-zero call that finds a directory in the place of the log directory's
    [train.yaml] raises [OSError]: the log directory and the directories
    above it exist already, nothing is created, and the file system is left
    as it was. *)
Theorem create_log_dir_config_path_is_directory {builtins : Builtins} {C}
    (project_root : Path)
    (environ : gmap string string) (cfg : C) (run_id : string)
    (fs : filesystem C) :
  let log_dir := joinpath (joinpath project_root LOGS_DIR) run_id in
  is_rank_zero environ = Ok true →
  ancestor_closed fs →
  (∀ q, q ∈ lineage log_dir → files fs !! q = None) →
  joinpath log_dir "train.yaml" ∈ dirs fs →
  create_log_dir project_root environ cfg run_id fs
  = (Err (OSError "EISDIR"), fs).
Proof.
  intros log_dir Hz Hclosed Hfree Hdir. unfold create_log_dir. rewrite Hz.
  fold log_dir.
  rewrite mkdir_parents_exist_ok_clear by (done || apply log_dir_nonempty).
  assert (dirs fs ∪ list_to_set (lineage log_dir) = dirs fs) as ->.
  { rewrite (comm_L (∪)). apply subseteq_union_1_L.
    intros q Hq%elem_of_list_to_set.
    apply (Hclosed _ q Hdir). rewrite train_yaml_child.
    by apply lineage_child. }
  unfold save. cbn [dirs files].
  rewrite bool_decide_eq_true_2 by done. by destruct fs.
Qed.

Lemma create_log_dir_config_path_is_directory_witness :
  let ty := ["/"; "repo"; "logs"; "1a2b3c4d"; "train.yaml"]%string in
  let fs := {| dirs := list_to_set (lineage ty);
               files := (∅ : gmap Path Z) |} in
  create_log_dir (builtins := ascii_int) ["/"; "repo"]%string ∅ 7
    "1a2b3c4d" fs
  = (Err (OSError "EISDIR"), fs).
Proof.
  intros ty fs.
  apply (create_log_dir_config_path_is_directory (builtins := ascii_int)
           ["/"; "repo"]%string ∅ 7 "1a2b3c4d" fs).
  - reflexivity.
  - intros d q Hd%elem_of_list_to_set Hq. apply elem_of_list_to_set.
    by apply (lineage_closed ty d q).
  - intros q _. reflexivity.
  - vm_compute. reflexivity.
Defined.

Lemma append_snoc_char (cur : string) (a : ascii) (r : string) :
  ((cur +:+ String a EmptyString) +:+ r = cur +:+ String a r)%string.
Proof.
  induction cur as [|c cur IH]; [done|].
  change (String c ((cur +:+ String a EmptyString) +:+ r)
          = String c (cur +:+ String a r)).
  by rewrite IH.
Qed.

Lemma append_empty_r (cur : string) : cur +:+ EmptyString = cur.
Proof.
  induction cur as [|c cur IH]; [done|].
  change (String c (cur +:+ EmptyString) = String c cur). by rewrite IH.
Qed.

Lemma split_slash_no_slash (cur s : string) :
  forallb (λ a, negb (Ascii.eqb a "/")) (list_ascii_of_string s) = true →
  split_slash cur s = [cur +:+ s].
Proof.
  revert cur. induction s as [|a r IH]; intros cur Hs; simpl in *.
  - by rewrite append_empty_r.
  - apply andb_prop in Hs as [Ha Hr].
    destruct (Ascii.eqb a "/"); [done|].
    rewrite IH by done. by rewrite append_snoc_char.
Qed.

Lemma plain_name_joinpath (p : Path) (s : string) :
  plain_name s = true → joinpath p s = p ++ [s].
Proof.
  unfold plain_name. intros [[[He Hd]%andb_prop _]%andb_prop Hs]%andb_prop.
  apply negb_true_iff, String.eqb_neq in He, Hd.
  assert (leading_slashes s = 0%nat) as Hl.
  { destruct s as [|a r]; [done|]. simpl in *.
    apply andb_prop in Hs as [Ha _]. by destruct (Ascii.eqb a "/"). }
  rewrite joinpath_relative by done. f_equal.
  unfold components. rewrite split_slash_no_slash by done. simpl.
  rewrite filter_cons, decide_True by done. done.
Qed.

(** X6: for a run id that is a single path component (not empty, not a
    dot name, no slash), every path [create_log_dir] returns is a direct
    child of the project's [logs] directory: [logs/<run_id>] on rank zero and
    [logs/None] on every other rank. *)
Theorem create_log_dir_returns_child_of_logs {builtins : Builtins} {C}
    (project_root : Path)
    (environ : gmap string string) (cfg : C) (run_id : string)
    (fs : filesystem C) (p : Path) :
  plain_name run_id = true →
  (create_log_dir project_root environ cfg run_id fs).1 = Ok p →
  (is_rank_zero environ = Ok true ∧
   p = project_root ++ ["logs"; run_id]%string) ∨
  (is_rank_zero environ = Ok false ∧
   p = project_root ++ ["logs"; "None"]%string).
Proof.
  intros Hplain. unfold create_log_dir.
  rewrite (plain_name_joinpath _ LOGS_DIR) by done.
  rewrite (plain_name_joinpath _ run_id) by done.
  rewrite (plain_name_joinpath _ "None") by done.
  rewrite <- !(assoc_L (++)). simpl.
  destruct (is_rank_zero environ) as [[|]|]; simpl; [| |done].
  - destruct (mkdir_parents_exist_ok _ _); simpl; [|done].
    destruct (save _ _ _); simpl; [|done]. intros [= <-]. by left.
  - intros [= <-]. by right.
Qed.

Lemma create_log_dir_returns_child_of_logs_witness :
  (create_log_dir (builtins := ascii_int) ["/"; "repo"]%string
     {[ "NODE_RANK" := "3" ]}%string 7
     "1a2b3c4d" {| dirs := ∅; files := ∅ |}).1
  = Ok ["/"; "repo"; "logs"; "None"]%string.
Proof.
  destruct (create_log_dir_returns_child_of_logs (builtins := ascii_int)
             ["/"; "repo"]%string
              {[ "NODE_RANK" := "3" ]}%string 7 "1a2b3c4d"
              {| dirs := ∅; files := ∅ |}
              ["/"; "repo"; "logs"; "None"]%string)
    as [[Hz _]|[_ Hp]]; [reflexivity..| |reflexivity].
  vm_compute in Hz. discriminate Hz.
Defined.



(** *** The hooks of the Lightning module *)

Section hooks.
Context `{Collaborators}.

Lemma hook_effect_model me me' k :
  model me = model me' → hook_effect me k = hook_effect me' k.
Proof. intros E. destruct k as [[??]?|[??]?|[??]?| | |]; simpl; by rewrite ?E. Qed.

Lemma media_entry_model me me' k :
  model me = model me' → media_entry me k = media_entry me' k.
Proof. intros E. destruct k as [[??]?|[??]?|[??]?| | |]; simpl; by rewrite ?E. Qed.

Lemma of_phase_snoc mode ks k :
  of_phase mode (ks ++ [k])
  = of_phase mode ks ++ (if same_phase mode k then [k] else []).
Proof. unfold of_phase. rewrite List.filter_app. simpl. by destruct (same_phase mode k). Qed.

Lemma same_phase_true mode k : same_phase mode k = true ↔ phase k = mode.
Proof. unfold same_phase. destruct (phase k), mode; split; done. Qed.

Lemma accumulator_inj me m1 m2 :
  NoDup [iou_train me; iou_val me; iou_test me] →
  accumulator me m1 = accumulator me m2 → m1 = m2.
Proof.
  intros Hnd. apply NoDup_cons in Hnd as [H1 Hnd].
  apply NoDup_cons in Hnd as [H2 _].
  rewrite !elem_of_cons in H1. rewrite elem_of_cons in H2.
  destruct m1, m2; simpl; intros E; try done; exfalso;
    (apply H1; rewrite E; tauto) || (apply H1; rewrite <- E; tauto)
    || (apply H2; rewrite E; tauto) || (apply H2; rewrite <- E; tauto).
Qed.

(** What the module is after [__init__] and any hooks: the references and
    the network of [__init__], three different references. *)
Lemma run_self config n (h0 : gmap loc Iou) ks :
  let st0 := init config n h0 in
  let st := run ks st0 in
  (∀ mode, accumulator (self st) mode = accumulator (self st0) mode) ∧
  model (self st) = model (self st0) ∧
  NoDup [iou_train (self st); iou_val (self st); iou_test (self st)].
Proof.
  intros st0 st.
  destruct (run_invariant ks st0) as (Ht & Hv & Hte & Hm & _).
  fold st in Ht, Hv, Hte, Hm.
  destruct (init_accumulators config n h0) as [Hnd _]. fold st0 in Hnd.
  split; [by intros [| |]|]. split; [done|]. by rewrite Ht, Hv, Hte.
Qed.

Lemma accumulator_replay config n (h0 : gmap loc Iou) ks mode :
  let st0 := init config n h0 in
  heap (run ks st0) !! accumulator (self st0) mode
  = Some (foldl (λ obj k, hook_effect (self st0) k obj)
            (Iou_new (num_classes config)) (of_phase mode ks)).
Proof.
  intros st0. induction ks as [|k ks IH] using rev_ind.
  { destruct (init_accumulators config n h0) as [_ Hinit].
    destruct (Hinit mode) as [_ Hh]. exact Hh. }
  destruct (run_self config n h0 ks) as (Hacc & Hmodel & Hnd).
  fold st0 in Hacc, Hmodel, Hnd.
  rewrite run_snoc, run_hook_heap, of_phase_snoc, foldl_app.
  rewrite (hook_effect_model _ _ k Hmodel).
  destruct (same_phase mode k) eqn:Es.
  - apply same_phase_true in Es as <-.
    rewrite decide_True by (by rewrite Hacc). by rewrite IH.
  - rewrite decide_False; [by rewrite app_nil_r in * || done|].
    rewrite <- Hacc. intros E%(accumulator_inj _ _ _ Hnd). subst.
    assert (same_phase (phase k) k = true) by (by apply same_phase_true).
    congruence.
Qed.

Lemma filter_filter {A} (f : A → bool) (l : list A) :
  List.filter f (List.filter f l) = List.filter f l.
Proof.
  induction l as [|x l IH]; [done|]. simpl.
  destruct (f x) eqn:E; simpl; rewrite ?E; by rewrite IH.
Qed.

(** X8: after [__init__] and any sequence of hooks, the metric object of
    a phase is the freshly constructed one to which the hooks of that phase
    alone were applied, in call order; the hooks of the other two phases can
    be removed from the sequence without changing it. *)
Theorem accumulator_depends_on_own_phase (config : TrainConf)
    (log_media_max_batches : nat) (h0 : gmap loc Iou) (ks : list hook)
    (mode : Mode) :
  let st0 := init config log_media_max_batches h0 in
  let acc := accumulator (self st0) mode in
  heap (run ks st0) !! acc
  = Some (foldl (λ obj k, hook_effect (self st0) k obj)
            (Iou_new (num_classes config)) (of_phase mode ks)) ∧
  heap (run ks st0) !! acc = heap (run (of_phase mode ks) st0) !! acc.
Proof.
  intros st0 acc. unfold acc, st0. rewrite !accumulator_replay.
  split; [done|]. unfold of_phase. by rewrite filter_filter.
Qed.

Lemma epoch_end_logged name acc st obj :
  heap st !! acc = Some obj →
  logged (epoch_end name acc st)
  = logged st ++ [(name, (Iou_compute_miou obj).1)].
Proof.
  intros E. unfold epoch_end. rewrite E.
  by destruct (Iou_compute_miou obj).
Qed.

(** X9: the scalar logged at the end of an epoch of a phase is the mean
    IoU computed from the metric object built by the hooks of that phase
    alone; it is appended to the log under the phase's mIoU name. *)
Theorem epoch_end_logs_miou_of_own_phase (config : TrainConf)
    (log_media_max_batches : nat) (h0 : gmap loc Iou) (ks : list hook)
    (mode : Mode) :
  let st0 := init config log_media_max_batches h0 in
  let obj := foldl (λ obj k, hook_effect (self st0) k obj)
               (Iou_new (num_classes config)) (of_phase mode ks) in
  logged (run (ks ++ [epoch_end_hook mode]) st0)
  = logged (run ks st0)
    ++ [(log_name (epoch_end_hook mode), (Iou_compute_miou obj).1)].
Proof.
  intros st0 obj. rewrite run_snoc.
  destruct (run_self config log_media_max_batches h0 ks) as (Hacc & _ & _).
  fold st0 in Hacc.
  pose proof (accumulator_replay config log_media_max_batches h0 ks mode)
    as Hobj.
  cbv zeta in Hobj. fold st0 in Hobj. rewrite <- Hacc in Hobj.
  destruct mode; simpl; by apply epoch_end_logged.
Qed.



Lemma run_hook_media k st mode :
  log_media (self (run_hook k st)) mode
  = match (if same_phase mode k then media_entry (self st) k else None) with
    | Some e => Queue_append e (log_media (self st) mode)
    | None => log_media (self st) mode
    end.
Proof.
  destruct k as [[??]?|[??]?|[??]?| | |], mode; simpl; try done;
    unfold training_epoch_end, validation_epoch_end, test_epoch_end, epoch_end;
    destruct (heap st !! _); try done; by destruct (Iou_compute_miou _).
Qed.

(** X11: the media queue of a phase holds, appended in call order to the
    empty queue of [__init__], the inputs, labels and predictions of the
    steps of that phase and nothing else: the steps of the other phases and
    the epoch ends leave it as it is. *)
Theorem media_queue_collects_own_steps (config : TrainConf)
    (log_media_max_batches : nat) (h0 : gmap loc Iou) (ks : list hook)
    (mode : Mode) :
  let st0 := init config log_media_max_batches h0 in
  log_media (self (run ks st0)) mode
  = foldl (λ q e, Queue_append e q)
      (get_empty_data_queue log_media_max_batches mode)
      (omap (media_entry (self st0)) (of_phase mode ks)).
Proof.
  intros st0. induction ks as [|k ks IH] using rev_ind; [done|].
  destruct (run_self config log_media_max_batches h0 ks) as (_ & Hmodel & _).
  fold st0 in Hmodel.
  rewrite run_snoc, run_hook_media, of_phase_snoc, omap_app, foldl_app, <- IH.
  rewrite (media_entry_model _ _ k Hmodel).
  clearbody st0. destruct (same_phase mode k); [|done]. simpl.
  by destruct (media_entry (self st0) k).
Qed.

(** X12: the module allocates its three metric objects in [__init__] and
    never another one, and no hook changes a metric object that existed
    before the module was constructed. *)
Theorem foreign_objects_untouched (config : TrainConf)
    (log_media_max_batches : nat) (h0 : gmap loc Iou) (ks : list hook) :
  let st := run ks (init config log_media_max_batches h0) in
  dom (heap st)
  = dom h0 ∪ {[iou_train (self st); iou_val (self st); iou_test (self st)]} ∧
  ∀ l, l ∈ dom h0 → heap st !! l = h0 !! l.
Proof.
  intros st. unfold st. clear st.
  set (st0 := init config log_media_max_batches h0).
  destruct (run_invariant ks st0) as (Ht & Hv & Hte & _ & Hdom).
  destruct (init_accumulators config log_media_max_batches h0) as [_ Hinit].
  fold st0 in Hinit.
  split.
  - rewrite Hdom, Ht, Hv, Hte. unfold st0, init, alloc. simpl.
    rewrite !dom_insert_L. apply set_eq. intros x.
    rewrite !elem_of_union, !elem_of_singleton. tauto.
  - intros l Hl. clear Ht Hv Hte Hdom.
    induction ks as [|k ks IH] using rev_ind.
    + simpl. unfold st0, init, alloc. simpl.
      pose proof (Hinit TRAIN) as [F1 _]. pose proof (Hinit VAL) as [F2 _].
      pose proof (Hinit TEST) as [F3 _]. simpl in F1, F2, F3.
      rewrite !lookup_insert_ne; [done|intros <-; done..].
    + rewrite run_snoc, run_hook_heap.
      destruct (run_self config log_media_max_batches h0 ks) as (Hacc & _ & _).
      fold st0 in Hacc. rewrite Hacc.
      rewrite decide_False; [apply IH|].
      intros ->. by destruct (Hinit (phase k)) as [F _].
Qed.

End hooks.

End TrainCoverage.

(** ** Further properties of seg_lapa/config_parse/dataset_conf.py *)
Module DatasetConfCoverage.
Import DatasetConf DatasetConfProofs.

Section outcomes.
Context `{Pydantic}.
Local Open Scope string_scope.

Lemma subscript_Ok v cls :
  subscript v = Ok cls → v = VStr "lapa" ∧ cls = make_LapaConf.
Proof.
  destruct v as [| | |s]; try done. unfold subscript, valid_options. simpl.
  case_decide as E; [|done]. simpl in E. subst. by intros [= <-].
Qed.

Lemma subscript_Err v e : subscript v = Err e → e = KeyError ∧ v ≠ VStr "lapa".
Proof.
  destruct v as [| | |s]; try (by intros [= <-]).
  unfold subscript, valid_options. simpl.
  case_decide as E; [done|]. simpl in E. intros [= <-]. split; [done|].
  intros [= ->]. done.
Qed.


(** X14: when [validate_dataconf] returns, the configuration is named
    "lapa", has exactly the six fields of [LapaConf], and the returned
    [LapaConf] holds for every field what the field's validator made of the
    configuration's value. *)
Theorem validate_dataconf_returns_validated_fields (cfg : DictConfig)
    (r : DatasetConf) :
  validate_dataconf cfg = Ok r →
  cfg !! "name" = Some (VStr "lapa") ∧
  dom cfg = lapa_fields ∧
  ∃ c, r = Lapa c ∧
       str_validator (VStr "lapa") = Some (name c) ∧
       cfg !! "data_dir" ≫= str_validator = Some (data_dir c) ∧
       cfg !! "batch_size" ≫= int_validator = Some (batch_size c) ∧
       cfg !! "num_workers" ≫= int_validator = Some (num_workers c) ∧
       cfg !! "resize_h" ≫= int_validator = Some (resize_h c) ∧
       cfg !! "resize_w" ≫= int_validator = Some (resize_w c).
Proof.
  unfold validate_dataconf.
  destruct (subscript (getattr cfg "name")) as [cls|e] eqn:Es.
  2:{ apply subscript_Err in Es as [-> _]. done. }
  apply subscript_Ok in Es as [Hname ->]. unfold make_LapaConf.
  destruct (decide (dom cfg = lapa_fields)) as [Hd|Hd]; [|done].
  destruct (lapa_validate cfg) as [c|] eqn:Ev; [|done]. intros [= <-].
  assert (cfg !! "name" = Some (VStr "lapa")) as Hn.
  { unfold getattr in Hname. destruct (cfg !! "name") as [v|]; [|done].
    simpl in Hname. by subst. }
  split; [done|]. split; [done|]. exists c. split; [done|].
  unfold lapa_validate in Ev. rewrite Hn in Ev. simpl in Ev.
  destruct (str_validator (VStr "lapa")) as [n|]; [|done]. simpl in Ev.
  destruct (cfg !! "data_dir" ≫= str_validator) as [d|]; [|done].
  destruct (cfg !! "batch_size" ≫= int_validator) as [b|]; [|done].
  destruct (cfg !! "num_workers" ≫= int_validator) as [w|]; [|done].
  destruct (cfg !! "resize_h" ≫= int_validator) as [rh|]; [|done].
  destruct (cfg !! "resize_w" ≫= int_validator) as [rw|]; [|done].
  simpl in Ev. by injection Ev as <-.
Qed.

End outcomes.

Lemma validate_dataconf_returns_validated_fields_witness :
  ∃ c, @validate_dataconf strict (lapa_config "/data/lapa" 32 4 256 256)
       = Ok (Lapa c) ∧ batch_size c = 32 ∧ data_dir c = "/data/lapa"%string.
Proof.
  destruct (@validate_dataconf_returns_validated_fields strict
              (lapa_config "/data/lapa" 32 4 256 256)
              (Lapa {| name := "lapa"; data_dir := "/data/lapa";
                       batch_size := 32; num_workers := 4;
                       resize_h := 256; resize_w := 256 |}) eq_refl)
    as (_ & _ & c & Hc & _ & Hd & Hb & _).
  exists c. split; [by rewrite <- Hc|].
  vm_compute in Hb, Hd. injection Hb as Hb. injection Hd as Hd.
  split; symmetry; [exact Hb|exact Hd].
Defined.

End DatasetConfCoverage.
